(** * Quality-gate runner: [run-quality-gates.py]

    The script prints a header, then runs four external commands through
    [subprocess.run(..., check=True, capture_output=True, text=True)]
    inside one [try] block with two handlers.  Its observable behaviour is
    the sequence of [print] calls and command invocations it performs,
    and the exit status of the interpreter.

    The embedding is a small monad over the trace of events, an error
    channel for Python exceptions, and a read-only environment that
    answers each command invocation.  [print] is taken to be total:
    a console that refuses to encode a character is outside the model,
    and so are asynchronous interrupts ([KeyboardInterrupt]). *)

From Stdlib Require Import ZArith List String Ascii Bool Lia DecimalString.
Import ListNotations.

Local Open Scope string_scope.
Local Open Scope list_scope.
Local Open Scope Z_scope.

(** ** Python runtime fragment used by the script *)

Module Py.

(** Where the text handed to [print] comes from: a message of the script
    (a literal or an f-string), or a captured stream attribute
    ([result.stdout], [e.stdout], [e.stderr]). *)
Inductive Origin : Type :=
| Message
| OutStream
| ErrStream.

Inductive Event : Type :=
| Print (o : Origin) (text : string)
| Run (argv : list string).

Definition Trace : Type := list Event.

(** [subprocess.CompletedProcess] with [capture_output=True, text=True]. *)
Record CompletedProcess : Type := mkCompleted
  { returncode : Z; stdout : string; stderr : string }.

(** The exceptions that occur: [CalledProcessError] carries the return
    code and both captured streams; [Exception] stands for any other
    instance of [Exception], with [msg = str(e)]; [SystemExit] is what
    [sys.exit] raises and is not an instance of [Exception]. *)
Inductive Exn : Type :=
| CalledProcessError (rc : Z) (out err : string)
| Exception (msg : string)
| SystemExit (code : Z).

(** What the outside world answers to one invocation: the command ran to
    completion, or the invocation itself failed with an exception. *)
Inductive Outcome : Type :=
| Exits (p : CompletedProcess)
| Fails (msg : string).

Definition Env : Type := list string -> Outcome.

Definition M (A : Type) : Type := Env -> Trace -> Trace * (Exn + A).

Definition ret {A} (a : A) : M A := fun _ t => (t, inr a).

Definition bind {A B} (m : M A) (f : A -> M B) : M B :=
  fun env t =>
    match m env t with
    | (t', inr a) => f a env t'
    | (t', inl e) => (t', inl e)
    end.

Definition raise {A} (e : Exn) : M A := fun _ t => (t, inl e).

Definition emit (ev : Event) : M unit := fun _ t => (t ++ [ev], inr tt).

Definition print (o : Origin) (s : string) : M unit := emit (Print o s).

(** [subprocess.run(argv, check=True, capture_output=True, text=True)] *)
Definition subprocess_run (argv : list string) : M CompletedProcess :=
  fun env t =>
    let t' := t ++ [Run argv] in
    match env argv with
    | Exits p =>
        if returncode p =? 0 then (t', inr p)
        else (t', inl (CalledProcessError (returncode p) (stdout p) (stderr p)))
    | Fails msg => (t', inl (Exception msg))
    end.

(** Truth value of a [str]: non-empty. *)
Definition truthy (s : string) : bool :=
  match s with
  | EmptyString => false
  | String _ _ => true
  end.

(** [if c: body] without an [else]. *)
Definition when (c : bool) (body : M unit) : M unit :=
  if c then body else ret tt.

Definition sys_exit {A} (code : Z) : M A := raise (SystemExit code).

(** [try: body / except CalledProcessError as e: h1 / except Exception as e: h2] *)
Definition try_except {A} (body : M A)
    (on_called_process_error : Z -> string -> string -> M A)
    (on_exception : string -> M A) : M A :=
  fun env t =>
    match body env t with
    | (t', inr a) => (t', inr a)
    | (t', inl (CalledProcessError rc out err)) =>
        on_called_process_error rc out err env t'
    | (t', inl (Exception msg)) => on_exception msg env t'
    | (t', inl (SystemExit code)) => (t', inl (SystemExit code))
    end.

(** Formatting of an [int] inside an f-string. *)
Definition str_int (z : Z) : string := NilZero.string_of_int (Z.to_int z).

(** Exit status of the interpreter: 0 when the module body finishes,
    the argument of [sys.exit], 1 for an uncaught exception. *)
Definition exit_status {A} (r : Exn + A) : Z :=
  match r with
  | inr _ => 0
  | inl (SystemExit code) => code
  | inl _ => 1
  end.

(** The bytes written to standard output: each [print] writes its text
    and a newline. *)
Definition nl : string := String (ascii_of_nat 10) EmptyString.

Fixpoint render (t : Trace) : string :=
  match t with
  | [] => ""
  | Print _ s :: t' => s ++ nl ++ render t'
  | Run _ :: t' => render t'
  end.

(** The commands invoked, in order. *)
Fixpoint invocations (t : Trace) : list (list string) :=
  match t with
  | [] => []
  | Run argv :: t' => argv :: invocations t'
  | Print _ _ :: t' => invocations t'
  end.

End Py.

Module PyNotations.
Notation "x <- m ;; k" := (Py.bind m (fun x => k))
  (at level 61, m at next level, right associativity).
Notation "m ;; k" := (Py.bind m (fun _ => k))
  (at level 61, right associativity).
End PyNotations.

Import Py PyNotations.

(** ** The script *)

Definition main : M unit :=
  print Message "Running quality gates for freshtrack-pro project..." ;;
  print Message "" ;;
  try_except
    ( print Message "Step 1: Installing dependencies..." ;;
      result <- subprocess_run
        ["wsl"; "-d"; "Ubuntu"; "-e"; "bash"; "-c";
         "cd /home/skynet/freshtrack-pro-local/fresh-staged && npm install"] ;;
      when (truthy (stdout result)) (print OutStream (stdout result)) ;;
      print Message "✓ Dependencies installed successfully" ;;
      print Message "" ;;

      print Message "Step 2: Running build process..." ;;
      result <- subprocess_run
        ["wsl"; "-d"; "Ubuntu"; "-e"; "bash"; "-c";
         "cd /home/skynet/freshtrack-pro-local/fresh-staged && npm run build"] ;;
      when (truthy (stdout result)) (print OutStream (stdout result)) ;;
      print Message "✓ Build completed successfully" ;;
      print Message "" ;;

      print Message "Step 3: Running test suite..." ;;
      result <- subprocess_run
        ["wsl"; "-d"; "Ubuntu"; "-e"; "bash"; "-c";
         "cd /home/skynet/freshtrack-pro-local/fresh-staged && npm test"] ;;
      when (truthy (stdout result)) (print OutStream (stdout result)) ;;
      print Message "✓ All tests passed" ;;
      print Message "" ;;

      print Message "Step 4: Checking for linting issues..." ;;
      result <- subprocess_run
        ["wsl"; "-d"; "Ubuntu"; "-e"; "bash"; "-c";
         "cd /home/skynet/freshtrack-pro-local/fresh-staged && npm run lint"] ;;
      when (truthy (stdout result)) (print OutStream (stdout result)) ;;
      print Message "✓ No linting issues found" ;;
      print Message "" ;;

      print Message "✨ All quality gates passed! ✨" )
    (fun returncode stdout stderr =>
      print Message
        ("Error: Command failed with exit code " ++ str_int returncode) ;;
      when (truthy stdout)
        (print Message (nl ++ "Output:") ;; print OutStream stdout) ;;
      when (truthy stderr)
        (print Message (nl ++ "Error:") ;; print ErrStream stderr) ;;
      sys_exit 1)
    (fun msg =>
      print Message ("Error: " ++ msg) ;;
      sys_exit 1).

(** One run of the process: the events performed and the exit status. *)
Definition run (env : Env) : Trace * Z :=
  let (t, r) := main env [] in (t, exit_status r).

Definition trace_of (env : Env) : Trace := fst (run env).
Definition exit_code (env : Env) : Z := snd (run env).

(** ** The four steps as data

    The [try] block repeats one schema four times.  The definitions below
    name its parameters, so that statements can quantify over a step. *)

Inductive Step : Type := install | build | test | lint.

Definition steps : list Step := [install; build; test; lint].

(** 1-indexed position in the fixed sequence. *)
Definition position (k : Step) : nat :=
  match k with
  | install => 1
  | build => 2
  | test => 3
  | lint => 4
  end%nat.

Definition before (k : Step) : list Step := firstn (position k - 1) steps.
Definition after (k : Step) : list Step := skipn (position k) steps.

Definition banner (k : Step) : string :=
  match k with
  | install => "Step 1: Installing dependencies..."
  | build => "Step 2: Running build process..."
  | test => "Step 3: Running test suite..."
  | lint => "Step 4: Checking for linting issues..."
  end.

Definition npm (k : Step) : string :=
  match k with
  | install => "npm install"
  | build => "npm run build"
  | test => "npm test"
  | lint => "npm run lint"
  end.

Definition command (k : Step) : list string :=
  ["wsl"; "-d"; "Ubuntu"; "-e"; "bash"; "-c";
   ("cd /home/skynet/freshtrack-pro-local/fresh-staged && " ++ npm k)%string].

Definition confirmation (k : Step) : string :=
  match k with
  | install => "✓ Dependencies installed successfully"
  | build => "✓ Build completed successfully"
  | test => "✓ All tests passed"
  | lint => "✓ No linting issues found"
  end.

Definition header : string :=
  "Running quality gates for freshtrack-pro project...".

Definition final_message : string := "✨ All quality gates passed! ✨".

Definition block (k : Step) : M unit :=
  print Message (banner k) ;;
  result <- subprocess_run (command k) ;;
  when (truthy (stdout result)) (print OutStream (stdout result)) ;;
  print Message (confirmation k) ;;
  print Message "".

Fixpoint blocks (l : list Step) : M unit :=
  match l with
  | [] => ret tt
  | k :: l' => block k ;; blocks l'
  end.

Definition on_called_process_error (rc : Z) (out err : string) : M unit :=
  print Message ("Error: Command failed with exit code " ++ str_int rc) ;;
  when (truthy out) (print Message (nl ++ "Output:") ;; print OutStream out) ;;
  when (truthy err) (print Message (nl ++ "Error:") ;; print ErrStream err) ;;
  sys_exit 1.

Definition on_exception (msg : string) : M unit :=
  print Message ("Error: " ++ msg) ;;
  sys_exit 1.

Definition main_by_steps : M unit :=
  print Message header ;;
  print Message "" ;;
  try_except (blocks steps ;; print Message final_message)
    on_called_process_error on_exception.

(** ** What the environment answers for a step *)

(** The step's command completes with exit code 0. *)
Definition passes (env : Env) (k : Step) : bool :=
  match env (command k) with
  | Exits p => returncode p =? 0
  | Fails _ => false
  end.

Definition succeeds (env : Env) (k : Step) (out err : string) : Prop :=
  env (command k) = Exits (mkCompleted 0 out err).

Definition exits_nonzero (env : Env) (k : Step) (rc : Z) (out err : string)
  : Prop :=
  env (command k) = Exits (mkCompleted rc out err) /\ rc <> 0.

Definition cannot_invoke (env : Env) (k : Step) (msg : string) : Prop :=
  env (command k) = Fails msg.

(** Every step before [k] passes, so the script gets to step [k]. *)
Definition reached (env : Env) (k : Step) : Prop :=
  forall j, (position j < position k)%nat -> passes env j = true.

Definition all_pass (env : Env) : bool := forallb (passes env) steps.

(** ** The events of each part of a run *)

Definition captured_stdout (env : Env) (k : Step) : string :=
  match env (command k) with
  | Exits p => stdout p
  | Fails _ => ""
  end.

Definition echo (o : Origin) (s : string) : Trace :=
  if truthy s then [Print o s] else [].

Definition preamble : Trace := [Print Message header; Print Message ""].

Definition start_events (k : Step) : Trace :=
  [Print Message (banner k); Run (command k)].

Definition ok_events (env : Env) (k : Step) : Trace :=
  start_events k ++ echo OutStream (captured_stdout env k)
  ++ [Print Message (confirmation k); Print Message ""].

Definition summary_line (rc : Z) : Event :=
  Print Message ("Error: Command failed with exit code " ++ str_int rc).

Definition dump (label : string) (o : Origin) (s : string) : Trace :=
  if truthy s then [Print Message (nl ++ label); Print o s] else [].

Definition failure_report (rc : Z) (out err : string) : Trace :=
  summary_line rc :: dump "Output:" OutStream out ++ dump "Error:" ErrStream err.

Definition exception_report (msg : string) : Trace :=
  [Print Message ("Error: " ++ msg)].

(** The exception raised by a step that does not pass. *)
Definition stop_exn (env : Env) (k : Step) : Exn :=
  match env (command k) with
  | Exits p => CalledProcessError (returncode p) (stdout p) (stderr p)
  | Fails msg => Exception msg
  end.

(** What the handlers print for an exception. *)
Definition report (e : Exn) : Trace :=
  match e with
  | CalledProcessError rc out err => failure_report rc out err
  | Exception msg => exception_report msg
  | SystemExit _ => []
  end.

(** ** Vocabulary for statements about traces *)

Definition Event_eq_dec (a b : Event) : {a = b} + {a <> b}.
Proof.
  decide equality.
  - apply string_dec.
  - decide equality.
  - apply (list_eq_dec string_dec).
Defined.

(** How many times the event [ev] occurs in a trace. *)
Definition times (ev : Event) (t : Trace) : nat := count_occ Event_eq_dec t ev.

(** Some occurrence of [a] comes before some occurrence of [b]. *)
Definition emitted_before (a b : Event) (t : Trace) : Prop :=
  exists t1 t2 t3, t = t1 ++ a :: t2 ++ b :: t3.

Fixpoint occurs_before (a b : Event) (t : Trace) : bool :=
  match t with
  | [] => false
  | e :: t' =>
      (if Event_eq_dec e a
       then (if in_dec Event_eq_dec b t' then true else false)
       else false)
      || occurs_before a b t'
  end.

(** Two answers that differ at most in the stderr of a command that
    exits with code 0. *)
Definition same_up_to_passing_stderr (o o' : Outcome) : Prop :=
  o' = o \/
  exists out err err',
    o = Exits (mkCompleted 0 out err) /\ o' = Exits (mkCompleted 0 out err').

(** ** Sample environments *)

Definition env_of (answer : Step -> Outcome) : Env :=
  fun argv =>
    if list_eq_dec string_dec argv (command install) then answer install
    else if list_eq_dec string_dec argv (command build) then answer build
    else if list_eq_dec string_dec argv (command test) then answer test
    else if list_eq_dec string_dec argv (command lint) then answer lint
    else Fails "unexpected command".

(** Every command exits 0; each writes to both streams. *)
Definition all_green : Env :=
  env_of (fun k => Exits (mkCompleted 0 (npm k ++ ": done") "npm warn deprecated")).

(** The same, with silent commands where [all_green] warns. *)
Definition all_green_quiet : Env :=
  env_of (fun k => Exits (mkCompleted 0 (npm k ++ ": done") "")).

(** install exits 0, build exits 2 with text on both streams. *)
Definition build_breaks : Env :=
  env_of (fun k =>
    match k with
    | install => Exits (mkCompleted 0 "added 12 packages" "")
    | build => Exits (mkCompleted 2 "out" "err")
    | _ => Exits (mkCompleted 0 "" "")
    end).

(** The external runtime is missing: the first invocation raises. *)
Definition no_wsl : Env :=
  env_of (fun _ => Fails "[WinError 2] The system cannot find the file specified").

(** install, build and test exit 0 without writing to stdout; lint exits 1
    and writes to neither stream. *)
Definition lint_fails_quietly : Env :=
  env_of (fun k =>
    match k with
    | lint => Exits (mkCompleted 1 "" "")
    | _ => Exits (mkCompleted 0 "" "npm warn deprecated")
    end).

(** As [build_breaks] up to build; test and lint cannot even be invoked. *)
Definition build_breaks_rest_unavailable : Env :=
  env_of (fun k =>
    match k with
    | install => Exits (mkCompleted 0 "added 12 packages" "")
    | build => Exits (mkCompleted 2 "out" "err")
    | _ => Fails "wsl: not found"
    end).

(** The lines the script itself prints for a passing step. *)
Definition own_lines (k : Step) : Trace :=
  [Print Message (banner k); Print Message (confirmation k); Print Message ""].

(** ** Reasoning about the monad *)

Lemma bind_assoc {A B C} (m : M A) (f : A -> M B) (g : B -> M C) env t :
  bind (bind m f) g env t = bind m (fun x => bind (f x) g) env t.
Proof. unfold bind. destruct (m env t) as [t' [e | a]]; reflexivity. Qed.

Lemma bind_ext {A B} (m : M A) (f g : A -> M B) env t :
  (forall a env' t', f a env' t' = g a env' t') ->
  bind m f env t = bind m g env t.
Proof.
  intros H. unfold bind. destruct (m env t) as [t' [e | a]]; auto.
Qed.

Lemma try_except_ext {A} (b b' : M A) h1 h2 env t :
  (forall env' t', b env' t' = b' env' t') ->
  try_except b h1 h2 env t = try_except b' h1 h2 env t.
Proof. intros H. unfold try_except. rewrite H. reflexivity. Qed.

Ltac next_statement :=
  repeat rewrite bind_assoc; apply bind_ext; intros.

Lemma main_by_steps_eq env t : main env t = main_by_steps env t.
Proof.
  unfold main, main_by_steps.
  do 2 (apply bind_ext; intros).
  apply try_except_ext. clear. intros env t.
  unfold blocks, steps, block.
  do 20 next_statement.
  reflexivity.
Qed.

(** ** Sample runs *)

Example run_build_breaks :
  run build_breaks
  = ([Print Message "Running quality gates for freshtrack-pro project...";
      Print Message "";
      Print Message "Step 1: Installing dependencies...";
      Run (command install);
      Print OutStream "added 12 packages";
      Print Message "✓ Dependencies installed successfully";
      Print Message "";
      Print Message "Step 2: Running build process...";
      Run (command build);
      Print Message "Error: Command failed with exit code 2";
      Print Message (nl ++ "Output:");
      Print OutStream "out";
      Print Message (nl ++ "Error:");
      Print ErrStream "err"], 1).
Proof. reflexivity. Qed.

Example run_no_wsl :
  run no_wsl
  = ([Print Message "Running quality gates for freshtrack-pro project...";
      Print Message "";
      Print Message "Step 1: Installing dependencies...";
      Run (command install);
      Print Message
        "Error: [WinError 2] The system cannot find the file specified"], 1).
Proof. reflexivity. Qed.

Example run_all_green_invocations :
  invocations (trace_of all_green) = map command steps
  /\ exit_code all_green = 0.
Proof. split; reflexivity. Qed.

Example str_int_negative : str_int (-9) = "-9".
Proof. reflexivity. Qed.

(** ** One step, and a sequence of steps *)

Lemma block_pass env k t :
  passes env k = true ->
  block k env t = (t ++ ok_events env k, inr tt).
Proof.
  unfold passes, block, ok_events, start_events, captured_stdout, echo,
    bind, subprocess_run, print, emit, when, ret.
  destruct (env (command k)) as [p | msg]; [intros -> | discriminate].
  destruct (truthy (stdout p)); cbn [app]; rewrite <- ?app_assoc; reflexivity.
Qed.

Lemma block_stop env k t :
  passes env k = false ->
  block k env t = (t ++ start_events k, inl (stop_exn env k)).
Proof.
  unfold passes, block, stop_exn, start_events,
    bind, subprocess_run, print, emit.
  destruct (env (command k)) as [p | msg]; [intros -> |];
    rewrite <- ?app_assoc; reflexivity.
Qed.

Lemma blocks_pass env l : forall t,
  forallb (passes env) l = true ->
  blocks l env t = (t ++ flat_map (ok_events env) l, inr tt).
Proof.
  induction l as [| k l IH]; intros t H; cbn [blocks flat_map].
  - unfold ret. now rewrite app_nil_r.
  - cbn in H. apply andb_prop in H as [Hk Hl].
    unfold bind. rewrite (block_pass _ _ _ Hk), (IH _ Hl).
    now rewrite <- app_assoc.
Qed.

Lemma blocks_stop env l1 k l2 t :
  forallb (passes env) l1 = true ->
  passes env k = false ->
  blocks (l1 ++ k :: l2) env t
  = (t ++ flat_map (ok_events env) l1 ++ start_events k,
     inl (stop_exn env k)).
Proof.
  revert t. induction l1 as [| j l1 IH]; intros t H1 Hk.
  - cbn [app blocks flat_map]. unfold bind.
    now rewrite (block_stop _ _ _ Hk).
  - cbn in H1. apply andb_prop in H1 as [Hj H1].
    cbn [app blocks flat_map]. unfold bind.
    rewrite (block_pass _ _ _ Hj), (IH _ H1 Hk).
    now rewrite <- !app_assoc.
Qed.

(** ** The handlers *)

Lemma on_called_process_error_run rc out err env t :
  on_called_process_error rc out err env t
  = (t ++ failure_report rc out err, inl (SystemExit 1)).
Proof.
  unfold on_called_process_error, failure_report, summary_line, dump,
    bind, print, emit, when, ret, sys_exit, raise.
  destruct (truthy out), (truthy err); cbn [app];
    rewrite <- ?app_assoc; cbn [app]; rewrite ?app_nil_r; reflexivity.
Qed.

Lemma on_exception_run msg env t :
  on_exception msg env t
  = (t ++ exception_report msg, inl (SystemExit 1)).
Proof. reflexivity. Qed.

Lemma handle_stop env k t :
  try_except (raise (stop_exn env k)) on_called_process_error on_exception
    env t
  = (t ++ report (stop_exn env k), inl (SystemExit 1)).
Proof.
  unfold stop_exn, try_except, raise, report.
  destruct (env (command k)) as [p | msg].
  - apply on_called_process_error_run.
  - apply on_exception_run.
Qed.

(** ** Position in the sequence *)

Lemma steps_split k : steps = before k ++ k :: after k.
Proof. destruct k; reflexivity. Qed.

Lemma in_before j k : In j (before k) <-> (position j < position k)%nat.
Proof.
  destruct k, j; cbn; split; intros H; try lia; try tauto;
    intuition discriminate.
Qed.

Lemma in_after j k : In j (after k) <-> (position k < position j)%nat.
Proof.
  destruct k, j; cbn; split; intros H; try lia; try tauto;
    intuition discriminate.
Qed.

Lemma position_inj j k : position j = position k -> j = k.
Proof. destruct j, k; cbn; intros H; try reflexivity; discriminate H. Qed.

Lemma command_inj j k : command j = command k -> j = k.
Proof. destruct j, k; intros H; try reflexivity; discriminate H. Qed.

Lemma reached_before env k :
  reached env k <-> forallb (passes env) (before k) = true.
Proof.
  rewrite forallb_forall. unfold reached.
  split; intros H j Hj; apply H; now apply in_before.
Qed.

Lemma all_pass_spec env : all_pass env = true <-> forall k, passes env k = true.
Proof.
  unfold all_pass. rewrite forallb_forall. split; intros H k.
  - apply H. destruct k; cbn; tauto.
  - intros _. apply H.
Qed.

(** Either every step passes, or there is a first step that does not. *)
Lemma stop_point env :
  all_pass env = true \/ exists k, reached env k /\ passes env k = false.
Proof.
  destruct (passes env install) eqn:H1;
    [destruct (passes env build) eqn:H2;
      [destruct (passes env test) eqn:H3;
        [destruct (passes env lint) eqn:H4 | ] | ] | ].
  - left. apply all_pass_spec. intros []; assumption.
  - right. exists lint. split; [| assumption].
    intros []; cbn; intros; try lia; assumption.
  - right. exists test. split; [| assumption].
    intros []; cbn; intros; try lia; assumption.
  - right. exists build. split; [| assumption].
    intros []; cbn; intros; try lia; assumption.
  - right. exists install. split; [| assumption].
    intros []; cbn; intros; try lia; assumption.
Qed.

(** ** The shape of a whole run *)

Lemma run_all_pass env :
  all_pass env = true ->
  run env
  = (preamble ++ flat_map (ok_events env) steps
       ++ [Print Message final_message], 0).
Proof.
  intros H. unfold run. rewrite main_by_steps_eq.
  unfold main_by_steps, try_except, bind at 1 2 3. cbn [print emit app].
  rewrite (blocks_pass _ _ _ H). unfold print, emit, preamble.
  rewrite <- app_assoc. reflexivity.
Qed.

Lemma main_stop env k :
  reached env k -> passes env k = false ->
  main env []
  = try_except (raise (stop_exn env k)) on_called_process_error on_exception
      env (preamble ++ flat_map (ok_events env) (before k) ++ start_events k).
Proof.
  intros R P. apply reached_before in R.
  rewrite main_by_steps_eq.
  unfold main_by_steps, bind at 1 2. cbn [print emit app].
  unfold try_except, bind, raise.
  rewrite (steps_split k), (blocks_stop _ _ _ _ _ R P). reflexivity.
Qed.

Lemma run_stop env k :
  reached env k -> passes env k = false ->
  run env
  = (preamble ++ flat_map (ok_events env) (before k) ++ start_events k
       ++ report (stop_exn env k), 1).
Proof.
  intros R P. unfold run. rewrite (main_stop _ _ R P), handle_stop.
  now rewrite <- !app_assoc.
Qed.

Lemma trace_all_pass env :
  all_pass env = true ->
  trace_of env
  = preamble ++ flat_map (ok_events env) steps
      ++ [Print Message final_message].
Proof. intros H. unfold trace_of. now rewrite run_all_pass. Qed.

Lemma trace_stop env k :
  reached env k -> passes env k = false ->
  trace_of env
  = preamble ++ flat_map (ok_events env) (before k) ++ start_events k
      ++ report (stop_exn env k).
Proof. intros R P. unfold trace_of. now rewrite (run_stop _ _ R P). Qed.

Lemma exit_code_spec env : exit_code env = if all_pass env then 0 else 1.
Proof.
  unfold exit_code. destruct (stop_point env) as [H | (k & R & P)].
  - rewrite H. now rewrite run_all_pass.
  - rewrite (run_stop _ _ R P).
    destruct (all_pass env) eqn:A; [| reflexivity].
    rewrite all_pass_spec in A. rewrite (A k) in P. discriminate.
Qed.

(** ** Reading the answer for a step *)

Lemma succeeds_passes env k out err :
  succeeds env k out err -> passes env k = true /\ captured_stdout env k = out.
Proof. unfold succeeds, passes, captured_stdout. now intros ->. Qed.

Lemma exits_nonzero_stop env k rc out err :
  exits_nonzero env k rc out err ->
  passes env k = false /\ stop_exn env k = CalledProcessError rc out err.
Proof.
  unfold exits_nonzero, passes, stop_exn. intros [-> H]. cbn. split.
  - now apply Z.eqb_neq.
  - reflexivity.
Qed.

Lemma cannot_invoke_stop env k msg :
  cannot_invoke env k msg ->
  passes env k = false /\ stop_exn env k = Exception msg.
Proof. unfold cannot_invoke, passes, stop_exn. now intros ->. Qed.

(** ** Invocations *)

Lemma invocations_app t1 t2 :
  invocations (t1 ++ t2) = invocations t1 ++ invocations t2.
Proof.
  induction t1 as [| [o s | a] t1 IH]; cbn; [reflexivity | assumption |].
  now rewrite IH.
Qed.

Lemma in_run_invocations a t : In (Run a) t <-> In a (invocations t).
Proof.
  induction t as [| [o s | b] t IH]; cbn.
  - tauto.
  - rewrite <- IH. split; [intros [H | H]; [discriminate | assumption] | auto].
  - rewrite <- IH. split; intros [H | H]; auto; left; congruence.
Qed.

Lemma invocations_echo o s : invocations (echo o s) = [].
Proof. unfold echo. now destruct (truthy s). Qed.

Lemma invocations_ok_events env k : invocations (ok_events env k) = [command k].
Proof.
  unfold ok_events. rewrite !invocations_app, invocations_echo. reflexivity.
Qed.

Lemma invocations_ok_steps env l :
  invocations (flat_map (ok_events env) l) = map command l.
Proof.
  induction l as [| k l IH]; cbn [flat_map map]; [reflexivity |].
  now rewrite invocations_app, invocations_ok_events, IH.
Qed.

Lemma invocations_report e : invocations (report e) = [].
Proof.
  destruct e as [rc out err | msg | c]; cbn; try reflexivity.
  unfold dump. now destruct (truthy out), (truthy err).
Qed.

Lemma invocations_all_pass env :
  all_pass env = true -> invocations (trace_of env) = map command steps.
Proof.
  intros H. rewrite (trace_all_pass _ H), !invocations_app.
  rewrite invocations_ok_steps. reflexivity.
Qed.

Lemma invocations_stop env k :
  reached env k -> passes env k = false ->
  invocations (trace_of env) = map command (firstn (position k) steps).
Proof.
  intros R P. rewrite (trace_stop _ _ R P), !invocations_app.
  rewrite invocations_ok_steps, invocations_report.
  destruct k; reflexivity.
Qed.

Lemma in_firstn_position j k :
  In j (firstn (position k) steps) <-> (position j <= position k)%nat.
Proof.
  destruct k, j; cbn; split; intros H; try lia; try tauto;
    intuition discriminate.
Qed.

Lemma in_map_command j l : In (command j) (map command l) -> In j l.
Proof.
  rewrite in_map_iff. intros (i & E & H). apply command_inj in E. now subst.
Qed.

(** * Properties of the runner *)

(** C1. When step [k] is the first step whose command returns a non-zero
    exit code, no command of a later step is invoked and the process exits
    with code 1. *)
Theorem fail_fast_after_nonzero_exit env k rc out err :
  exits_nonzero env k rc out err ->
  (forall j rc' out' err',
      (position j < position k)%nat -> ~ exits_nonzero env j rc' out' err') ->
  (forall j, (position k < position j)%nat ->
             ~ In (Run (command j)) (trace_of env))
  /\ exit_code env = 1.
Proof.
  intros Hk _. apply exits_nonzero_stop in Hk as [Pk _].
  assert (A : all_pass env = false).
  { destruct (all_pass env) eqn:A; [| reflexivity].
    rewrite all_pass_spec in A. rewrite (A k) in Pk. discriminate. }
  split; [| now rewrite exit_code_spec, A].
  destruct (stop_point env) as [H | (k' & R & P)]; [congruence |].
  assert (Hle : (position k' <= position k)%nat).
  { destruct (Nat.le_gt_cases (position k') (position k)) as [H | H];
      [assumption |]. rewrite (R _ H) in Pk. discriminate. }
  intros j Hj Hin. apply in_run_invocations in Hin.
  rewrite (invocations_stop _ _ R P) in Hin.
  apply in_map_command, in_firstn_position in Hin. lia.
Qed.

Lemma fail_fast_after_nonzero_exit_witness :
  exits_nonzero build_breaks build 2 "out" "err"
  /\ (forall j, (position build < position j)%nat ->
                ~ In (Run (command j)) (trace_of build_breaks))
  /\ exit_code build_breaks = 1.
Proof.
  assert (H : exits_nonzero build_breaks build 2 "out" "err").
  { split; [reflexivity | discriminate]. }
  split; [exact H |].
  apply (fail_fast_after_nonzero_exit build_breaks build 2 "out" "err" H).
  intros j rc' out' err' Hlt [E Hne].
  destruct j; cbn in Hlt; try lia.
  vm_compute in E. injection E as <- _ _. now apply Hne.
Defined.

(** C3. The commands invoked are those of a prefix of install, build,
    test, lint, in that order, and a step's command is invoked only when
    every earlier step has exited with code 0. *)
Theorem invocations_prefix_of_steps env :
  exists n,
    invocations (trace_of env) = map command (firstn n steps)
    /\ forall k, In (Run (command k)) (trace_of env) -> reached env k.
Proof.
  destruct (stop_point env) as [H | (k & R & P)].
  - exists 4%nat. split; [now apply invocations_all_pass |].
    intros k _ j _. now apply all_pass_spec.
  - exists (position k). split; [now apply invocations_stop |].
    intros j Hin i Hi. apply in_run_invocations in Hin.
    rewrite (invocations_stop _ _ R P) in Hin.
    apply in_map_command, in_firstn_position in Hin.
    apply R. lia.
Qed.

Lemma invocations_prefix_of_steps_witness :
  In (Run (command build)) (trace_of build_breaks)
  /\ reached build_breaks build.
Proof.
  assert (I : In (Run (command build)) (trace_of build_breaks)).
  { vm_compute. tauto. }
  split; [exact I |].
  destruct (invocations_prefix_of_steps build_breaks) as (n & _ & H).
  exact (H build I).
Defined.

(** C8. The exit code is 0 exactly when all four steps exit with code 0,
    and 1 in every other case, whether a command exits non-zero or an
    invocation fails; no other code is produced. *)
Theorem exit_code_zero_or_one env :
  exit_code env = (if all_pass env then 0 else 1)
  /\ (exit_code env = 0 \/ exit_code env = 1).
Proof.
  rewrite exit_code_spec. split; [reflexivity |].
  destruct (all_pass env); auto.
Qed.

(** C10. Every run starts with the header line and a blank line, before
    any banner is printed and before any command is invoked. *)
Theorem header_first env :
  exists rest,
    trace_of env = Print Message header :: Print Message "" :: rest
    /\ render (trace_of env) = (header ++ nl ++ nl ++ render rest)%string.
Proof.
  destruct (stop_point env) as [H | (k & R & P)].
  - rewrite (trace_all_pass _ H). eexists. split; reflexivity.
  - rewrite (trace_stop _ _ R P). eexists. split; reflexivity.
Qed.

(** ** Counting the final message *)

Lemma times_app ev t1 t2 : times ev (t1 ++ t2) = (times ev t1 + times ev t2)%nat.
Proof. apply count_occ_app. Qed.

Lemma times_echo_message o s text :
  o <> Message -> times (Print Message text) (echo o s) = 0%nat.
Proof.
  intros H. unfold echo, times. destruct (truthy s); [| reflexivity].
  apply count_occ_cons_neq. congruence.
Qed.

Lemma final_message_not_in_block env k :
  times (Print Message final_message) (ok_events env k) = 0%nat.
Proof.
  unfold ok_events. rewrite !times_app, times_echo_message by discriminate.
  destruct k; reflexivity.
Qed.

(** C2. When all four commands exit with code 0, the process exits with
    code 0 and the final success message is printed exactly once. *)
Theorem all_pass_exit_zero_final_once env :
  all_pass env = true ->
  exit_code env = 0
  /\ times (Print Message final_message) (trace_of env) = 1%nat.
Proof.
  intros H. split; [now rewrite exit_code_spec, H |].
  rewrite (trace_all_pass _ H). unfold steps. cbn [flat_map].
  rewrite !times_app, !final_message_not_in_block. reflexivity.
Qed.

Lemma all_pass_exit_zero_final_once_witness :
  all_pass all_green = true
  /\ exit_code all_green = 0
  /\ times (Print Message final_message) (trace_of all_green) = 1%nat.
Proof.
  split; [reflexivity |].
  apply (all_pass_exit_zero_final_once all_green). reflexivity.
Defined.

(** ** A step that exits non-zero *)

Lemma trace_exits_nonzero env k rc out err :
  reached env k -> exits_nonzero env k rc out err ->
  trace_of env
  = (preamble ++ flat_map (ok_events env) (before k) ++ start_events k)
      ++ failure_report rc out err.
Proof.
  intros R H. apply exits_nonzero_stop in H as [P E].
  rewrite (trace_stop _ _ R P), E. cbn [report].
  now rewrite <- !app_assoc.
Qed.

Lemma in_dump label o s : s <> "" -> In (Print o s) (dump label o s).
Proof.
  unfold dump. destruct s; [congruence |]. cbn. auto.
Qed.

(** C4. When a step's command completes with a non-zero exit code, that
    code is printed, the captured stdout and the captured stderr are each
    printed when non-empty, and the process exits with code 1. *)
Theorem nonzero_exit_reported env k rc out err :
  reached env k ->
  exits_nonzero env k rc out err ->
  In (Print Message ("Error: Command failed with exit code " ++ str_int rc))
     (trace_of env)
  /\ (out <> "" -> In (Print OutStream out) (trace_of env))
  /\ (err <> "" -> In (Print ErrStream err) (trace_of env))
  /\ exit_code env = 1.
Proof.
  intros R H. rewrite (trace_exits_nonzero _ _ _ _ _ R H).
  unfold failure_report, summary_line.
  repeat split.
  - apply in_or_app. right. now left.
  - intros Ho. apply in_or_app. right. right.
    apply in_or_app. left. now apply in_dump.
  - intros He. apply in_or_app. right. right.
    apply in_or_app. right. now apply in_dump.
  - apply exits_nonzero_stop in H as [P _].
    rewrite exit_code_spec. destruct (all_pass env) eqn:A; [| reflexivity].
    rewrite all_pass_spec in A. rewrite (A k) in P. discriminate.
Qed.

Lemma reached_build_breaks : reached build_breaks build.
Proof. intros [] H; cbn in H; try lia. reflexivity. Defined.

Lemma exits_nonzero_build_breaks : exits_nonzero build_breaks build 2 "out" "err".
Proof. split; [reflexivity | discriminate]. Defined.

Lemma nonzero_exit_reported_witness :
  (reached build_breaks build /\ exits_nonzero build_breaks build 2 "out" "err")
  /\ In (Print Message "Error: Command failed with exit code 2")
        (trace_of build_breaks)
  /\ In (Print OutStream "out") (trace_of build_breaks)
  /\ In (Print ErrStream "err") (trace_of build_breaks)
  /\ exit_code build_breaks = 1.
Proof.
  split; [exact (conj reached_build_breaks exits_nonzero_build_breaks) |].
  destruct (nonzero_exit_reported build_breaks build 2 "out" "err"
              reached_build_breaks exits_nonzero_build_breaks)
    as (H1 & H2 & H3 & H4).
  split; [exact H1 |]. split; [apply H2; discriminate |].
  split; [apply H3; discriminate | exact H4].
Defined.

(** ** Order of the failure report *)

Lemma emitted_before_occurs a b t :
  emitted_before a b t -> occurs_before a b t = true.
Proof.
  intros (t1 & t2 & t3 & ->).
  induction t1 as [| e t1 IH]; cbn [app occurs_before].
  - destruct (Event_eq_dec a a) as [_ | N]; [| congruence].
    destruct (in_dec Event_eq_dec b (t2 ++ b :: t3)) as [_ | N];
      [reflexivity |].
    exfalso. apply N, in_or_app. right. now left.
  - rewrite IH. apply orb_true_r.
Qed.

(** C5, as the specification words it, fails: when build exits with code 2
    and has text on both streams, neither captured stream is emitted before
    the error summary line. *)
Lemma streams_not_before_summary :
  reached build_breaks build
  /\ exits_nonzero build_breaks build 2 "out" "err"
  /\ ~ emitted_before (Print OutStream "out") (summary_line 2)
         (trace_of build_breaks)
  /\ ~ emitted_before (Print ErrStream "err") (summary_line 2)
         (trace_of build_breaks).
Proof.
  split; [exact reached_build_breaks |].
  split; [exact exits_nonzero_build_breaks |].
  split; intros H; apply emitted_before_occurs in H;
    vm_compute in H; discriminate H.
Qed.

(** C5, amended. When a step's command exits non-zero, the error summary
    line is emitted first; after it come the captured stdout and then the
    captured stderr, each only when non-empty and each right after its
    labelled header; nothing follows. *)
Theorem summary_then_streams env k rc out err :
  reached env k ->
  exits_nonzero env k rc out err ->
  exists pre,
    trace_of env
    = pre
      ++ [Print Message ("Error: Command failed with exit code " ++ str_int rc)]
      ++ (if truthy out
          then [Print Message (nl ++ "Output:"); Print OutStream out] else [])
      ++ (if truthy err
          then [Print Message (nl ++ "Error:"); Print ErrStream err] else []).
Proof.
  intros R H. eexists. rewrite (trace_exits_nonzero _ _ _ _ _ R H).
  reflexivity.
Qed.

Lemma summary_then_streams_witness :
  (reached build_breaks build /\ exits_nonzero build_breaks build 2 "out" "err")
  /\ exists pre,
       trace_of build_breaks
       = pre ++ [Print Message "Error: Command failed with exit code 2";
                 Print Message (nl ++ "Output:"); Print OutStream "out";
                 Print Message (nl ++ "Error:"); Print ErrStream "err"].
Proof.
  split; [exact (conj reached_build_breaks exits_nonzero_build_breaks) |].
  exact (summary_then_streams build_breaks build 2 "out" "err"
           reached_build_breaks exits_nonzero_build_breaks).
Defined.

(** ** A step that passes *)

Lemma flat_map_in_split {A B} (f : A -> list B) k l :
  In k l -> exists pre post, flat_map f l = pre ++ f k ++ post.
Proof.
  intros H. apply in_split in H as (l1 & l2 & ->).
  rewrite flat_map_app. cbn [flat_map]. eauto.
Qed.

Lemma trace_contains_block env k :
  reached env k -> passes env k = true ->
  exists pre post, trace_of env = pre ++ ok_events env k ++ post.
Proof.
  intros R P.
  destruct (stop_point env) as [H | (k' & R' & P')].
  - rewrite (trace_all_pass _ H).
    destruct (flat_map_in_split (ok_events env) k steps) as (pre & post & ->).
    { destruct k; cbn; tauto. }
    exists (preamble ++ pre), (post ++ [Print Message final_message]).
    now rewrite <- !app_assoc.
  - assert (Hlt : (position k < position k')%nat).
    { destruct (Nat.lt_trichotomy (position k) (position k'))
        as [H | [H | H]]; [assumption | |].
      - apply position_inj in H. subst. congruence.
      - rewrite (R _ H) in P'. discriminate. }
    rewrite (trace_stop _ _ R' P').
    destruct (flat_map_in_split (ok_events env) k (before k'))
      as (pre & post & ->).
    { now apply in_before. }
    exists (preamble ++ pre),
      (post ++ start_events k' ++ report (stop_exn env k')).
    now rewrite <- !app_assoc.
Qed.

(** C6. For a step that succeeds with non-empty captured stdout, the
    captured stdout is printed in full right after the step's banner and
    the invocation, and before the step's confirmation line, which is
    followed by a blank line. *)
Theorem passing_stdout_between_banner_and_confirmation env k out err :
  reached env k ->
  succeeds env k out err ->
  out <> "" ->
  exists pre post,
    trace_of env
    = pre
      ++ [Print Message (banner k); Run (command k); Print OutStream out;
          Print Message (confirmation k); Print Message ""]
      ++ post.
Proof.
  intros R H Hout. apply succeeds_passes in H as [P E].
  destruct (trace_contains_block _ _ R P) as (pre & post & ->).
  exists pre, post. unfold ok_events, echo. rewrite E.
  destruct out; [congruence | reflexivity].
Qed.

Lemma passing_stdout_between_banner_and_confirmation_witness :
  (reached build_breaks install
   /\ succeeds build_breaks install "added 12 packages" ""
   /\ "added 12 packages" <> "")
  /\ exists pre post,
       trace_of build_breaks
       = pre
         ++ [Print Message "Step 1: Installing dependencies...";
             Run (command install);
             Print OutStream "added 12 packages";
             Print Message "✓ Dependencies installed successfully";
             Print Message ""]
         ++ post.
Proof.
  assert (R : reached build_breaks install).
  { intros [] H; cbn in H; lia. }
  assert (S : succeeds build_breaks install "added 12 packages" "").
  { reflexivity. }
  assert (N : "added 12 packages" <> "").
  { discriminate. }
  split; [exact (conj R (conj S N)) |].
  exact (passing_stdout_between_banner_and_confirmation
           build_breaks install "added 12 packages" "" R S N).
Defined.

(** ** An invocation that raises *)

(** C7. When the invocation of a step fails with an exception other than
    the one for a non-zero exit code, the generic handler runs: it prints
    the description of the error, and the process exits with code 1. *)
Theorem invocation_error_handled env k msg :
  reached env k ->
  cannot_invoke env k msg ->
  exists pre,
    main env [] = on_exception msg env pre
    /\ trace_of env = pre ++ [Print Message ("Error: " ++ msg)]
    /\ exit_code env = 1.
Proof.
  intros R H. apply cannot_invoke_stop in H as [P E].
  exists (preamble ++ flat_map (ok_events env) (before k) ++ start_events k).
  assert (M : main env [] = on_exception msg env
                (preamble ++ flat_map (ok_events env) (before k)
                   ++ start_events k)).
  { rewrite (main_stop _ _ R P), E. reflexivity. }
  split; [exact M |].
  unfold trace_of, exit_code, run. rewrite M, on_exception_run.
  split; reflexivity.
Qed.

Lemma invocation_error_handled_witness :
  (reached no_wsl install
   /\ cannot_invoke no_wsl install
        "[WinError 2] The system cannot find the file specified")
  /\ exists pre,
       main no_wsl [] =
         on_exception "[WinError 2] The system cannot find the file specified"
           no_wsl pre
       /\ trace_of no_wsl
          = pre ++ [Print Message
               "Error: [WinError 2] The system cannot find the file specified"]
       /\ exit_code no_wsl = 1.
Proof.
  assert (R : reached no_wsl install).
  { intros [] H; cbn in H; lia. }
  assert (C : cannot_invoke no_wsl install
                "[WinError 2] The system cannot find the file specified").
  { reflexivity. }
  split; [exact (conj R C) |].
  exact (invocation_error_handled no_wsl install _ R C).
Defined.

(** ** The stderr of a passing step *)

Lemma block_same_up_to_passing_stderr env env' k t :
  (forall argv, same_up_to_passing_stderr (env argv) (env' argv)) ->
  block k env' t = block k env t.
Proof.
  intros H. unfold block, bind, subprocess_run, print, emit.
  destruct (H (command k)) as [-> | (out & err & err' & -> & ->)].
  - destruct (env (command k)) as [[rc out err] | msg]; cbn;
      [destruct (rc =? 0); [destruct out |] |]; reflexivity.
  - cbn. destruct out; reflexivity.
Qed.

Lemma blocks_same_up_to_passing_stderr env env' l :
  (forall argv, same_up_to_passing_stderr (env argv) (env' argv)) ->
  forall t, blocks l env' t = blocks l env t.
Proof.
  intros H. induction l as [| k l IH]; intros t; cbn [blocks].
  - reflexivity.
  - unfold bind. rewrite (block_same_up_to_passing_stderr _ _ _ _ H).
    destruct (block k env t) as [t' [e | []]]; [reflexivity | apply IH].
Qed.

Lemma main_by_steps_guarded env t :
  main_by_steps env t
  = try_except (blocks steps ;; print Message final_message)
      on_called_process_error on_exception
      env ((t ++ [Print Message header]) ++ [Print Message ""]).
Proof. reflexivity. Qed.

Lemma main_same_up_to_passing_stderr env env' t :
  (forall argv, same_up_to_passing_stderr (env argv) (env' argv)) ->
  main env' t = main env t.
Proof.
  intros H. rewrite !main_by_steps_eq, !main_by_steps_guarded.
  unfold try_except, bind.
  rewrite (blocks_same_up_to_passing_stderr _ _ _ H).
  destruct (blocks steps env _) as [t' [[rc out err | msg | c] | []]].
  - now rewrite !on_called_process_error_run.
  - reflexivity.
  - reflexivity.
  - reflexivity.
Qed.

Lemma no_stderr_in_block env k s : ~ In (Print ErrStream s) (ok_events env k).
Proof.
  unfold ok_events, start_events, echo. intros H.
  destruct (truthy (captured_stdout env k)); cbn in H;
    intuition discriminate.
Qed.

Lemma no_stderr_in_blocks env l s :
  ~ In (Print ErrStream s) (flat_map (ok_events env) l).
Proof.
  rewrite in_flat_map. intros (k & _ & H). now apply no_stderr_in_block in H.
Qed.

Lemma stderr_in_report e s :
  In (Print ErrStream s) (report e) -> exists rc out, e = CalledProcessError rc out s.
Proof.
  destruct e as [rc out err | msg | c]; cbn; [| intuition discriminate | tauto].
  unfold dump. intros H. exists rc, out.
  destruct (truthy out), (truthy err); cbn in H;
    intuition (try discriminate; congruence).
Qed.

Lemma stop_exn_called_process_error env k rc out err :
  passes env k = false ->
  stop_exn env k = CalledProcessError rc out err ->
  exits_nonzero env k rc out err.
Proof.
  unfold passes, stop_exn, exits_nonzero.
  destruct (env (command k)) as [[rc' out' err'] | msg]; cbn;
    [| discriminate].
  intros P E. injection E as -> -> ->. split; [reflexivity |].
  now apply Z.eqb_neq.
Qed.

(** C9. The captured stderr of a step that exits with code 0 is never
    printed: a run does not depend on it, and whatever is printed from a
    captured stderr belongs to a step that exited non-zero. *)
Theorem passing_stderr_discarded env env' :
  (forall argv, same_up_to_passing_stderr (env argv) (env' argv)) ->
  run env' = run env
  /\ forall s, In (Print ErrStream s) (trace_of env) ->
               exists k rc out, reached env k /\ exits_nonzero env k rc out s.
Proof.
  intros H. split.
  - unfold run. now rewrite (main_same_up_to_passing_stderr _ _ _ H).
  - intros s Hin. destruct (stop_point env) as [A | (k & R & P)].
    + rewrite (trace_all_pass _ A) in Hin.
      apply in_app_or in Hin as [Hin | Hin];
        [cbn in Hin; intuition discriminate |].
      apply in_app_or in Hin as [Hin | Hin];
        [now apply no_stderr_in_blocks in Hin |].
      cbn in Hin. intuition discriminate.
    + rewrite (trace_stop _ _ R P) in Hin.
      apply in_app_or in Hin as [Hin | Hin];
        [cbn in Hin; intuition discriminate |].
      apply in_app_or in Hin as [Hin | Hin];
        [now apply no_stderr_in_blocks in Hin |].
      apply in_app_or in Hin as [Hin | Hin];
        [cbn in Hin; intuition discriminate |].
      apply stderr_in_report in Hin as (rc & out & E).
      exists k, rc, out. split; [assumption |].
      now apply stop_exn_called_process_error.
Qed.

Lemma passing_stderr_discarded_witness :
  (forall argv,
      same_up_to_passing_stderr (all_green argv) (all_green_quiet argv))
  /\ run all_green_quiet = run all_green.
Proof.
  assert (H : forall argv,
             same_up_to_passing_stderr (all_green argv) (all_green_quiet argv)).
  { intros argv. unfold all_green, all_green_quiet, env_of.
    repeat (destruct (list_eq_dec string_dec argv _);
            [right; eexists _, _, _; split; reflexivity |]).
    now left. }
  split; [exact H |].
  exact (proj1 (passing_stderr_discarded all_green all_green_quiet H)).
Defined.

(** * Further properties of the runner *)

(** ** Which commands run *)

Lemma in_invocations_reached env k :
  In (command k) (invocations (trace_of env)) <-> reached env k.
Proof.
  destruct (stop_point env) as [A | (k' & R & P)].
  - rewrite (invocations_all_pass _ A). split.
    + intros _ j _. now apply all_pass_spec.
    + intros _. apply in_map. destruct k; cbn; tauto.
  - rewrite (invocations_stop _ _ R P). split.
    + intros H i Hi. apply in_map_command, in_firstn_position in H.
      apply R. lia.
    + intros Rk. apply in_map, in_firstn_position.
      destruct (Nat.le_gt_cases (position k) (position k')) as [H | H];
        [assumption |].
      rewrite (Rk _ H) in P. discriminate.
Qed.

(** X1. A step whose predecessors all exited with code 0 is invoked: no
    step is skipped. *)
Theorem reached_step_is_invoked env k :
  reached env k -> In (Run (command k)) (trace_of env).
Proof.
  intros R. apply in_run_invocations. now apply in_invocations_reached.
Qed.

Lemma reached_step_is_invoked_witness :
  reached build_breaks build /\ In (Run (command build)) (trace_of build_breaks).
Proof.
  split; [exact reached_build_breaks |].
  exact (reached_step_is_invoked build_breaks build reached_build_breaks).
Defined.

Lemma NoDup_command_prefix n : NoDup (map command (firstn n steps)).
Proof.
  assert (H : NoDup (map command steps)).
  { repeat constructor; cbn; intuition discriminate. }
  rewrite <- (firstn_skipn n steps), map_app in H.
  now apply NoDup_app_remove_r in H.
Qed.

(** X2. Whatever the commands answer, the script invokes nothing but its
    four commands, and none of them twice. *)
Theorem only_the_four_commands_at_most_once env :
  incl (invocations (trace_of env)) (map command steps)
  /\ NoDup (invocations (trace_of env)).
Proof.
  assert (H : exists n, invocations (trace_of env)
                        = map command (firstn n steps)).
  { destruct (stop_point env) as [A | (k & R & P)].
    - exists 4%nat. now apply invocations_all_pass.
    - exists (position k). now apply invocations_stop. }
  destruct H as (n & ->). split.
  - intros a Ha. apply in_map_iff in Ha as (k & <- & Hk).
    apply in_map. rewrite <- (firstn_skipn n steps).
    apply in_or_app. now left.
  - apply NoDup_command_prefix.
Qed.

(** X3. Every invocation is announced: the command of a step is run right
    after the print of that step's banner. *)
Theorem invocation_follows_banner env k :
  In (Run (command k)) (trace_of env) ->
  exists pre post,
    trace_of env = pre ++ [Print Message (banner k); Run (command k)] ++ post.
Proof.
  intros H. apply in_run_invocations, in_invocations_reached in H.
  destruct (passes env k) eqn:P.
  - destruct (trace_contains_block _ _ H P) as (pre & post & ->).
    exists pre. eexists. unfold ok_events, start_events.
    rewrite <- !app_assoc. reflexivity.
  - rewrite (trace_stop _ _ H P).
    exists (preamble ++ flat_map (ok_events env) (before k)),
      (report (stop_exn env k)).
    unfold start_events. now rewrite <- !app_assoc.
Qed.

Lemma invocation_follows_banner_witness :
  In (Run (command install)) (trace_of no_wsl)
  /\ exists pre post,
       trace_of no_wsl
       = pre ++ [Print Message "Step 1: Installing dependencies...";
                 Run (command install)] ++ post.
Proof.
  assert (I : In (Run (command install)) (trace_of no_wsl)).
  { vm_compute. tauto. }
  split; [exact I |].
  exact (invocation_follows_banner no_wsl install I).
Defined.

(** X4. A step that exits with code 0 and an empty stdout prints nothing
    between the invocation and its confirmation line: no empty
    passthrough line is written. *)
Theorem passing_step_with_empty_stdout env k err :
  reached env k ->
  succeeds env k "" err ->
  exists pre post,
    trace_of env
    = pre
      ++ [Print Message (banner k); Run (command k);
          Print Message (confirmation k); Print Message ""]
      ++ post.
Proof.
  intros R H. apply succeeds_passes in H as [P E].
  destruct (trace_contains_block _ _ R P) as (pre & post & ->).
  exists pre, post. unfold ok_events, echo. rewrite E. reflexivity.
Qed.

Lemma passing_step_with_empty_stdout_witness :
  (reached lint_fails_quietly build
   /\ succeeds lint_fails_quietly build "" "npm warn deprecated")
  /\ exists pre post,
       trace_of lint_fails_quietly
       = pre
         ++ [Print Message "Step 2: Running build process...";
             Run (command build);
             Print Message "✓ Build completed successfully";
             Print Message ""]
         ++ post.
Proof.
  assert (R : reached lint_fails_quietly build).
  { intros [] H; cbn in H; try lia. reflexivity. }
  assert (S : succeeds lint_fails_quietly build "" "npm warn deprecated").
  { reflexivity. }
  split; [exact (conj R S) |].
  exact (passing_step_with_empty_stdout lint_fails_quietly build _ R S).
Defined.

(** ** How often the script's own lines are printed *)

Lemma times_message_ok_events env k m :
  times (Print Message m) (ok_events env k)
  = times (Print Message m) (own_lines k).
Proof.
  unfold ok_events, start_events, own_lines.
  rewrite !times_app, times_echo_message by discriminate.
  unfold times. cbn [count_occ].
  repeat match goal with
    | |- context [Event_eq_dec ?a ?b] =>
        destruct (Event_eq_dec a b); try discriminate
    end; lia.
Qed.

Lemma times_message_ok_steps env l m :
  times (Print Message m) (flat_map (ok_events env) l)
  = times (Print Message m) (flat_map own_lines l).
Proof.
  induction l as [| k l IH]; cbn [flat_map]; [reflexivity |].
  now rewrite !times_app, times_message_ok_events, IH.
Qed.

(** A line that is neither an error line nor a section header does not
    occur in what the handlers print. *)
Lemma times_message_report e m :
  (forall s, m <> "Error: " ++ s)%string ->
  m <> (nl ++ "Output:")%string ->
  m <> (nl ++ "Error:")%string ->
  times (Print Message m) (report e) = 0%nat.
Proof.
  intros HE HO HR. apply count_occ_not_In. intros H.
  destruct e as [rc out err | msg | c]; cbn [report] in H.
  - unfold failure_report, summary_line, dump in H.
    destruct H as [H | H].
    + injection H as H.
      now apply (HE ("Command failed with exit code " ++ str_int rc)%string).
    + apply in_app_or in H as [H | H].
      * destruct (truthy out); cbn [In] in H;
          intuition (try discriminate; congruence).
      * destruct (truthy err); cbn [In] in H;
          intuition (try discriminate; congruence).
  - unfold exception_report in H. destruct H as [H | []].
    injection H as H. now apply (HE msg).
  - destruct H.
Qed.

Ltac plain_line :=
  repeat split; try (intros s); cbn; discriminate.

Lemma times_banner_report e k :
  times (Print Message (banner k)) (report e) = 0%nat.
Proof. apply times_message_report; destruct k; plain_line. Qed.

Lemma times_confirmation_report e k :
  times (Print Message (confirmation k)) (report e) = 0%nat.
Proof. apply times_message_report; destruct k; plain_line. Qed.

Lemma times_final_report e :
  times (Print Message final_message) (report e) = 0%nat.
Proof. apply times_message_report; plain_line. Qed.

Lemma times_trace_all_pass env m :
  all_pass env = true ->
  times (Print Message m) (trace_of env)
  = times (Print Message m)
      (preamble ++ flat_map own_lines steps ++ [Print Message final_message]).
Proof.
  intros A. rewrite (trace_all_pass _ A).
  now rewrite !times_app, times_message_ok_steps.
Qed.

Lemma times_trace_stop env k m :
  reached env k -> passes env k = false ->
  times (Print Message m) (trace_of env)
  = (times (Print Message m)
       (preamble ++ flat_map own_lines (before k) ++ start_events k)
     + times (Print Message m) (report (stop_exn env k)))%nat.
Proof.
  intros R P. rewrite (trace_stop _ _ R P).
  rewrite !times_app, times_message_ok_steps. lia.
Qed.

(** The answers fixed by a first step that does not pass. *)
Lemma passes_at_stop env k j :
  reached env k -> passes env k = false ->
  passes env j = (position j <? position k)%nat
  \/ (position k < position j)%nat.
Proof.
  intros R P.
  destruct (Nat.lt_trichotomy (position j) (position k)) as [H | [H | H]].
  - left. rewrite (R _ H). symmetry. now apply Nat.ltb_lt.
  - left. apply position_inj in H. subst. rewrite P.
    symmetry. apply Nat.ltb_irrefl.
  - now right.
Qed.

Lemma before_passes_at_stop env k j :
  reached env k -> passes env k = false ->
  forallb (passes env) (before j) = (position j <=? position k)%nat.
Proof.
  intros R P.
  destruct (Nat.leb_spec (position j) (position k)) as [H | H].
  - apply reached_before. intros i Hi. apply R. lia.
  - destruct (forallb (passes env) (before j)) eqn:F; [| reflexivity].
    apply reached_before in F. rewrite (F _ H) in P. discriminate.
Qed.

(** X5. The final success message is printed once when all four commands
    exit with code 0 and not at all otherwise. *)
Theorem final_message_iff_all_pass env :
  times (Print Message final_message) (trace_of env)
  = if all_pass env then 1%nat else 0%nat.
Proof.
  destruct (stop_point env) as [A | (k & R & P)].
  - rewrite A, (times_trace_all_pass _ _ A). reflexivity.
  - assert (A : all_pass env = false).
    { destruct (all_pass env) eqn:A; [| reflexivity].
      rewrite all_pass_spec in A. rewrite (A k) in P. discriminate. }
    rewrite A, (times_trace_stop _ _ _ R P), times_final_report.
    destruct k; reflexivity.
Qed.

(** X6. The banner of a step is printed once when every earlier step has
    exited with code 0, and not at all otherwise. *)
Theorem banner_once_iff_reached env k :
  times (Print Message (banner k)) (trace_of env)
  = if forallb (passes env) (before k) then 1%nat else 0%nat.
Proof.
  destruct (stop_point env) as [A | (k' & R & P)].
  - rewrite (times_trace_all_pass _ _ A).
    replace (forallb (passes env) (before k)) with true.
    + destruct k; reflexivity.
    + symmetry. apply reached_before. intros j _. now apply all_pass_spec.
  - rewrite (times_trace_stop _ _ _ R P), times_banner_report.
    rewrite (before_passes_at_stop _ _ _ R P).
    destruct k, k'; reflexivity.
Qed.

(** X7. The confirmation line of a step is printed once when the step is
    reached and its command exits with code 0, and not at all otherwise:
    a step that fails is never reported as done. *)
Theorem confirmation_once_iff_passed env k :
  times (Print Message (confirmation k)) (trace_of env)
  = if forallb (passes env) (before k) && passes env k
    then 1%nat else 0%nat.
Proof.
  destruct (stop_point env) as [A | (k' & R & P)].
  - rewrite (times_trace_all_pass _ _ A).
    replace (forallb (passes env) (before k)) with true.
    + rewrite (proj1 (all_pass_spec env) A k). destruct k; reflexivity.
    + symmetry. apply reached_before. intros j _. now apply all_pass_spec.
  - rewrite (times_trace_stop _ _ _ R P), times_confirmation_report.
    rewrite (before_passes_at_stop _ _ _ R P).
    destruct (passes_at_stop env k' k R P) as [-> | H].
    + destruct k, k'; reflexivity.
    + replace (position k <=? position k')%nat with false
        by (symmetry; apply Nat.leb_gt; assumption).
      destruct k, k'; cbn in H; try lia; reflexivity.
Qed.

(** ** What a run depends on *)

Lemma agree_on_step env env' k :
  env' (command k) = env (command k) ->
  passes env' k = passes env k
  /\ ok_events env' k = ok_events env k
  /\ stop_exn env' k = stop_exn env k.
Proof.
  intros H. unfold passes, ok_events, captured_stdout, stop_exn.
  now rewrite H.
Qed.

Lemma flat_map_ext_in {A B} (f g : A -> list B) l :
  (forall a, In a l -> f a = g a) -> flat_map f l = flat_map g l.
Proof.
  induction l as [| a l IH]; intros H; cbn [flat_map]; [reflexivity |].
  rewrite (H a) by now left.
  rewrite IH; [reflexivity |]. intros b Hb. apply H. now right.
Qed.

Lemma reached_earlier env j k :
  reached env k -> (position j <= position k)%nat -> reached env j.
Proof. intros R H i Hi. apply R. lia. Qed.

(** X8. A run depends only on the answers of the steps it reaches: two
    environments that agree on every step whose predecessors all exit
    with code 0 give the same events and the same exit code, whatever
    they answer for the steps after a failure. *)
Theorem run_depends_on_reached_steps env env' :
  (forall j, reached env j -> env' (command j) = env (command j)) ->
  run env' = run env.
Proof.
  intros H. destruct (stop_point env) as [A | (k & R & P)].
  - assert (E : forall j, env' (command j) = env (command j)).
    { intros j. apply H. intros i _. now apply all_pass_spec. }
    assert (A' : all_pass env' = true).
    { apply all_pass_spec. intros j.
      rewrite (proj1 (agree_on_step _ _ _ (E j))). now apply all_pass_spec. }
    rewrite (run_all_pass _ A), (run_all_pass _ A').
    rewrite (flat_map_ext_in (ok_events env') (ok_events env)); [reflexivity |].
    intros j _. apply (agree_on_step _ _ _ (E j)).
  - assert (E : forall j, (position j <= position k)%nat ->
                          env' (command j) = env (command j)).
    { intros j Hj. apply H. now apply (reached_earlier _ _ k). }
    assert (R' : reached env' k).
    { intros j Hj. rewrite (proj1 (agree_on_step _ _ _ (E j (Nat.lt_le_incl _ _ Hj)))).
      now apply R. }
    assert (P' : passes env' k = false).
    { now rewrite (proj1 (agree_on_step _ _ _ (E k (Nat.le_refl _)))). }
    rewrite (run_stop _ _ R P), (run_stop _ _ R' P').
    rewrite (flat_map_ext_in (ok_events env') (ok_events env)).
    + now rewrite (proj2 (proj2 (agree_on_step _ _ _ (E k (Nat.le_refl _))))).
    + intros j Hj. apply in_before in Hj.
      apply (agree_on_step _ _ _ (E j (Nat.lt_le_incl _ _ Hj))).
Qed.

Lemma run_depends_on_reached_steps_witness :
  (forall j, reached build_breaks j ->
             build_breaks_rest_unavailable (command j) = build_breaks (command j))
  /\ run build_breaks_rest_unavailable = run build_breaks.
Proof.
  assert (H : forall j, reached build_breaks j ->
                build_breaks_rest_unavailable (command j)
                = build_breaks (command j)).
  { intros [] R; try reflexivity.
    - assert (F : passes build_breaks build = true) by (apply R; cbn; lia).
      discriminate F.
    - assert (F : passes build_breaks build = true) by (apply R; cbn; lia).
      discriminate F. }
  split; [exact H |].
  exact (run_depends_on_reached_steps build_breaks
           build_breaks_rest_unavailable H).
Defined.

(** ** Error lines *)





(** ** Section headers of the failure report *)

Lemma times_header_failure_report rc out err :
  times (Print Message (nl ++ "Output:")) (failure_report rc out err)
  = (if truthy out then 1%nat else 0%nat)
  /\ times (Print Message (nl ++ "Error:")) (failure_report rc out err)
     = (if truthy err then 1%nat else 0%nat).
Proof.
  unfold failure_report, summary_line, dump, times.
  split; destruct (truthy out), (truthy err); cbn [app count_occ];
    repeat match goal with
      | |- context [Event_eq_dec ?a ?b] =>
          let E := fresh "E" in
          destruct (Event_eq_dec a b) as [E | E];
            [try (cbn in E; discriminate E) | try (now elim E)]
      end; reflexivity.
Qed.

(** X10. When a step exits non-zero, the [Output:] header is printed once
    if the captured stdout is non-empty and not at all if it is empty, and
    likewise the [Error:] header for the captured stderr. *)
Theorem stream_headers_iff_nonempty env k rc out err :
  reached env k ->
  exits_nonzero env k rc out err ->
  times (Print Message (nl ++ "Output:")) (trace_of env)
  = (if truthy out then 1%nat else 0%nat)
  /\ times (Print Message (nl ++ "Error:")) (trace_of env)
     = (if truthy err then 1%nat else 0%nat).
Proof.
  intros R H. apply exits_nonzero_stop in H as [P E].
  rewrite !(times_trace_stop _ _ _ R P), E. cbn [report].
  destruct (times_header_failure_report rc out err) as [-> ->].
  split; destruct k; reflexivity.
Qed.

Lemma stream_headers_iff_nonempty_witness :
  (reached lint_fails_quietly lint
   /\ exits_nonzero lint_fails_quietly lint 1 "" "")
  /\ times (Print Message (nl ++ "Output:")) (trace_of lint_fails_quietly) = 0%nat
  /\ times (Print Message (nl ++ "Error:")) (trace_of lint_fails_quietly) = 0%nat.
Proof.
  assert (R : reached lint_fails_quietly lint).
  { intros [] H; cbn in H; try lia; reflexivity. }
  assert (N : exits_nonzero lint_fails_quietly lint 1 "" "").
  { split; [reflexivity | discriminate]. }
  split; [exact (conj R N) |].
  exact (stream_headers_iff_nonempty lint_fails_quietly lint 1 "" "" R N).
Defined.
